(** * go-external-ip: the quorum over DNS and HTTP resolvers

    A shallow embedding of [external-ip.go].  The package asks a pool of
    independent resolvers for the host's external address, one goroutine per
    resolver, and a collecting goroutine tallies the answers and hands the
    first answer given by more than half of the pool to the caller.

    The two entry points [DNS] and [HTTP] contain the same fan-out and the
    same collecting loop; they differ only in the slice they range over
    ([queriers], three functions; [urls], eighteen strings).  The loop is
    therefore embedded once, as a transition system over the values the
    resolver goroutines send; the schedule of the goroutines is the trace.

    The resolvers themselves talk to the network.  What the network answers is
    an input of the model: a DNS exchange yields a reply or an error, an HTTP
    GET yields a response or an error.  Library functions of Go that the
    package calls ([net.ParseIP], [strings.TrimSpace], the formatting of an
    IPv6 address) are parameters. *)

From stdpp Require Import gmap strings list fin_maps.
From Stdlib Require Import Strings.Byte Strings.Ascii DecimalString.

(** ** Results of a Go function that may panic *)

Inductive outcome :=
  | Return (ip : string)
  | Panic.

(** ** The DNS resolvers *)

(** [net.IP] is a byte slice; a nil slice is the empty list. *)
Definition IP := list byte.

#[global] Instance byte_eq_decision : EqDecision byte := Byte.byte_eq_dec.

Inductive qtype := TypeA | TypeTXT.

(** The resource records the package distinguishes by type assertion. *)
Inductive RR :=
  | RR_A (A : IP)
  | RR_TXT (Txt : list string)
  | RR_other.

Record Msg := { Answer : list RR }.

(** [dns.Exchange(msg, server)]: a reply, or [err != nil]. *)
Inductive exchange_result :=
  | Exchange_ok (reply : Msg)
  | Exchange_err.

(** The network as seen by [dns.Exchange]: question name, question type and
    server address determine the result. *)
Definition resolver := string → qtype → string → exchange_result.

(** [isZeros(p)] of package net. *)
Definition isZeros (p : list byte) : bool :=
  forallb (λ b, Byte.eqb b x00) p.

(** [func (ip IP) To4() IP]. *)
Definition To4 (ip : IP) : IP :=
  if decide (length ip = 4) then ip
  else if decide (length ip = 16)
    then if isZeros (take 10 ip)
            && bool_decide (ip !! 10 = Some xff)
            && bool_decide (ip !! 11 = Some xff)
         then take 4 (drop 12 ip)
         else []
    else [].

(** Decimal text of one byte, as [uitoa] prints it. *)
Definition uitoa (b : byte) : string :=
  NilEmpty.string_of_uint (N.to_uint (Byte.to_N b)).

(** [func (ip IP) String() string]: ["<nil>"] for a slice of length 0, dotted
    decimal for an IPv4 address; [String6] stands for the remaining forms
    (IPv6 text, or ["?"] followed by hexadecimal digits). *)
Definition IP_String (String6 : IP → string) (ip : IP) : string :=
  if decide (length ip = 0) then "<nil>"
  else match To4 ip with
       | [a; b; c; d] =>
           uitoa a +:+ "." +:+ uitoa b +:+ "." +:+ uitoa c +:+ "." +:+ uitoa d
       | _ => String6 ip
       end.

(** [GoogleDNS]: the named result [ip] starts as [""]; [in.Answer[0]] and
    [t.Txt[0]] are index expressions, which panic out of range. *)
Definition GoogleDNS (ParseIP : string → IP) (String6 : IP → string)
    (Exchange : resolver) : outcome :=
  match Exchange "o-o.myaddr.l.google.com." TypeTXT "ns1.google.com:53" with
  | Exchange_err => Return ""
  | Exchange_ok reply =>
      match Answer reply !! 0 with
      | None => Panic
      | Some (RR_TXT Txt) =>
          match Txt !! 0 with
          | None => Panic
          | Some t => Return (IP_String String6 (To4 (ParseIP t)))
          end
      | Some _ => Return ""
      end
  end.

(** [OpenDNS]. *)
Definition OpenDNS (String6 : IP → string) (Exchange : resolver) : outcome :=
  match Exchange "myip.opendns.com." TypeA "resolver1.opendns.com:53" with
  | Exchange_err => Return ""
  | Exchange_ok reply =>
      match Answer reply !! 0 with
      | None => Panic
      | Some (RR_A A) => Return (IP_String String6 (To4 A))
      | Some _ => Return ""
      end
  end.

(** [AkamaiDNS]. *)
Definition AkamaiDNS (String6 : IP → string) (Exchange : resolver) : outcome :=
  match Exchange "whoami.akamai.net." TypeA "ns1-1.akamaitech.net:53" with
  | Exchange_err => Return ""
  | Exchange_ok reply =>
      match Answer reply !! 0 with
      | None => Panic
      | Some (RR_A A) => Return (IP_String String6 (To4 A))
      | Some _ => Return ""
      end
  end.

(** [var queriers]. *)
Definition queriers (ParseIP : string → IP) (String6 : IP → string)
    : list (resolver → outcome) :=
  [GoogleDNS ParseIP String6; OpenDNS String6; AkamaiDNS String6].

(** ** The HTTP resolvers *)

(** [ioutil.ReadAll(resp.Body)]: the bytes read, or an error. *)
Inductive read_result :=
  | ReadAll_ok (bytes : string)
  | ReadAll_err.

Record Response := { StatusCode : Z; Body : read_result }.

(** [http.Get(url)]: a response (of any status), or [err != nil]. *)
Inductive get_result :=
  | Get_ok (resp : Response)
  | Get_err.

Definition web := string → get_result.

(** [urlGetReadAll]. *)
Definition urlGetReadAll (TrimSpace : string → string) (Get : web)
    (url : string) : string :=
  match Get url with
  | Get_err => ""
  | Get_ok resp =>
      match Body resp with
      | ReadAll_err => ""
      | ReadAll_ok bytes => TrimSpace bytes
      end
  end.

(** [var urls]. *)
Definition urls : list string :=
  [ "http://v4.ident.me/";
    "http://whatismyip.akamai.com/";
    "http://checkip.amazonaws.com/";
    "http://ipecho.net/plain";
    "http://inet-ip.info/ip";
    "http://eth0.me/";
    "http://wgetip.com/";
    "http://bot.whatismyipaddress.com/";
    "http://ipof.in/txt";
    "http://smart-ip.net/myip";
    "https://ip.tyk.nu/";
    "https://tnx.nl/ip";
    "https://l2.io/ip";
    "https://api.ipify.org/";
    "https://myexternalip.com/raw";
    "https://icanhazip.com";
    "https://ifconfig.io/ip";
    "https://wtfismyip.com/text" ].

(** ** The fan-out and the collecting goroutine

    [replies] lists, in the order of the slice ranged over, the string each
    goroutine of the first loop sends on [ch]. *)

(** What happens between two blocking points of the goroutines.  Both
    channels are unbuffered, so a send and its receive are one event. *)
Inductive event :=
  | Deliver (i : nat)  (* goroutine [i]: [ch <- f()] meets [ip := <-ch] *)
  | Emit               (* [result <- ip] meets the caller's [<-result] *)
  | Close              (* [close(result)] *)
  | RecvClosed.        (* the caller's [<-result] on the closed channel *)

#[global] Instance event_eq_dec : EqDecision event.
Proof. solve_decision. Defined.

Record state := State {
  senders : list (option string);
      (* per goroutine of the first loop: the value it has yet to send *)
  iters : nat;             (* iterations of the collecting loop not yet begun *)
  ips : gmap string nat;   (* [ips := make(map[string]int)] *)
  done : bool;             (* [done := false] *)
  sending : option string; (* the collector is parked at [result <- ip] *)
  closed : bool;           (* [result] has been closed *)
  returned : option string (* the value the entry point returned *)
}.

Definition init (replies : list string) : state :=
  {| senders := Some <$> replies; iters := length replies; ips := ∅;
     done := false; sending := None; closed := false; returned := None |}.

(** One event.  [Deliver] runs the loop body from the receive up to the next
    blocking point: [ips[ip]++], then the test
    [!done && ips[ip] > len(queriers)/2].  The counts stay below the length
    of the slice, a Go [int], so [nat] loses nothing. *)
Definition step (replies : list string) (s : state) (e : event) : option state :=
  match e with
  | Deliver i =>
      match sending s, iters s, senders s !! i with
      | None, S k, Some (Some ip) =>
          let c := S (ips s !!! ip) in
          Some {| senders := <[i := None]> (senders s); iters := k;
                  ips := <[ip := c]> (ips s); done := done s;
                  sending := if negb (done s) && (length replies / 2 <? c)%nat
                             then Some ip else None;
                  closed := closed s; returned := returned s |}
      | _, _, _ => None
      end
  | Emit =>
      match sending s, returned s with
      | Some ip, None =>
          Some {| senders := senders s; iters := iters s; ips := ips s;
                  done := true; sending := None; closed := closed s;
                  returned := Some ip |}
      | _, _ => None
      end
  | Close =>
      match sending s, iters s, closed s with
      | None, 0, false =>
          Some {| senders := senders s; iters := iters s; ips := ips s;
                  done := done s; sending := sending s; closed := true;
                  returned := returned s |}
      | _, _, _ => None
      end
  | RecvClosed =>
      match closed s, returned s with
      | true, None =>
          Some {| senders := senders s; iters := iters s; ips := ips s;
                  done := done s; sending := sending s; closed := closed s;
                  returned := Some ""%string |}
      | _, _ => None
      end
  end.

(** A schedule, run from a state. *)
Fixpoint exec (replies : list string) (s : state) (tr : list event)
    : option state :=
  match tr with
  | [] => Some s
  | e :: tr' =>
      match step replies s e with
      | Some s' => exec replies s' tr'
      | None => None
      end
  end.

(** A run of the program: a schedule from the initial state. *)
Definition run (replies : list string) (tr : list event) : option state :=
  exec replies (init replies) tr.

(** No event is possible: every goroutine has ended or is blocked for good. *)
Definition quiescent (replies : list string) (s : state) : Prop :=
  ∀ e, step replies s e = None.

(** How many of the values equal [v]. *)
Definition occurrences {A} `{EqDecision A} (v : A) (l : list A) : nat :=
  length (filter (λ x, x = v) l).

(** The quorum threshold [floor(N/2) + 1]. *)
Definition threshold (replies : list string) : nat :=
  length replies / 2 + 1.

(** The goroutines whose send has been received, in order of arrival. *)
Definition deliveries (tr : list event) : list nat :=
  omap (λ e, match e with Deliver i => Some i | _ => None end) tr.

(** The values received on [ch], in order of arrival. *)
Definition arrivals (replies : list string) (tr : list event) : list string :=
  omap (λ i, replies !! i) (deliveries tr).

(** How often a value was handed to the caller through [result]. *)
Definition emissions (tr : list event) : nat :=
  length (filter (λ e, e = Emit) tr).

(** The values not yet sent. *)
Definition pending (s : state) : list string := omap id (senders s).

(** Steps left, at most: a bound on every schedule. *)
Definition fuel (s : state) : nat :=
  iters s + (if closed s then 0 else 1)
  + match returned s, sending s with
    | Some _, _ => 0
    | None, Some _ => 1
    | None, None => 2
    end.

(** The entry point returns [v] under every schedule: schedules are bounded,
    some event is possible as long as the caller waits, and the caller
    receives nothing but [v]. *)
Definition always_returns (replies : list string) (v : string) : Prop :=
  ∀ tr s, run replies tr = Some s →
    length tr ≤ length replies + 3 ∧
    (returned s = None → ∃ e s', step replies s e = Some s') ∧
    (∀ w, returned s = Some w → w = v).

(** The replies of the HTTP pool, given what the web serves. *)
Definition HTTP_replies (TrimSpace : string → string) (Get : web) : list string :=
  urlGetReadAll TrimSpace Get <$> urls.

(** The replies of the DNS pool; a panic in a goroutine ends the program. *)
Definition DNS_replies (ParseIP : string → IP) (String6 : IP → string)
    (Exchange : resolver) : option (list string) :=
  mapM (λ f : resolver → outcome,
          match f Exchange with Return ip => Some ip | Panic => None end)
       (queriers ParseIP String6).

(** ASCII white space, the part of [unicode.IsSpace] below 0x80. *)
Definition asciiSpace (c : ascii) : bool :=
  bool_decide (c ∈ [" "; "009"; "010"; "011"; "012"; "013"]%char).

Fixpoint trimLeft (s : string) : string :=
  match s with
  | String c s' => if asciiSpace c then trimLeft s' else s
  | EmptyString => EmptyString
  end.

(** [strings.TrimSpace] on ASCII text. *)
Definition trimASCII (s : string) : string :=
  String.rev (trimLeft (String.rev (trimLeft s))).

(** A resolver whose replies carry no answer record (an empty [Answer]
    slice, as in a reply with a non-zero response code). *)
Definition no_answer : resolver := λ _ _ _, Exchange_ok {| Answer := [] |}.

(** No value reaches the threshold. *)
Definition no_majority (replies : list string) : Prop :=
  ∀ v, occurrences v replies < threshold replies.

(** The entry point never returns, whatever the schedule. *)
Definition blocks_forever (replies : list string) : Prop :=
  ∀ tr s, run replies tr = Some s → returned s = None.

(** What holds of a run [tr] and the state [s] it leads to. *)
Record Inv (replies : list string) (tr : list event) (s : state) : Prop := {
  inv_len : length (senders s) = length replies;
  inv_senders : ∀ i r, replies !! i = Some r →
    senders s !! i = Some (if decide (i ∈ deliveries tr) then None else Some r);
  inv_nodup : NoDup (deliveries tr);
  inv_range : ∀ i, i ∈ deliveries tr → i < length replies;
  inv_iters : iters s = length (pending s);
  inv_tally : ∀ v, ips s !!! v = occurrences v (arrivals replies tr);
  inv_left : ∀ v, ips s !!! v + occurrences v (pending s) = occurrences v replies;
  inv_sending : ∀ ip, sending s = Some ip →
    done s = false ∧ returned s = None ∧ closed s = false
    ∧ length replies / 2 < ips s !!! ip;
  inv_done : done s = true →
    ∃ w, returned s = Some w ∧ length replies / 2 < ips s !!! w;
  inv_quiet : done s = false → sending s = None →
    ∀ v, ips s !!! v ≤ length replies / 2;
  inv_closed : closed s = true → iters s = 0 ∧ sending s = None;
  inv_zero : ∀ w, returned s = Some w → done s = false →
    closed s = true ∧ w = ""%string;
  inv_emits : emissions tr = if done s then 1 else 0
}.

(** Dotted decimal, as [IP_String] prints four bytes. *)
Definition dotted (a b c d : byte) : string :=
  uitoa a +:+ "." +:+ uitoa b +:+ "." +:+ uitoa c +:+ "." +:+ uitoa d.

(** The text holds no dot. *)
Fixpoint dotfree (s : string) : bool :=
  match s with
  | EmptyString => true
  | String c s' => negb (Ascii.eqb c ".") && dotfree s'
  end.

(** * Counting *)

Section Occurrences.
Context {A : Type} `{EqDecision A}.
Implicit Types (v w x : A) (l k : list A).

Lemma occurrences_nil v : occurrences v [] = 0.
Proof. reflexivity. Qed.

Lemma occurrences_cons v x l :
  occurrences v (x :: l) = (if decide (x = v) then 1 else 0) + occurrences v l.
Proof.
  unfold occurrences. rewrite filter_cons.
  destruct (decide (x = v)); reflexivity.
Qed.

Lemma occurrences_app v l k :
  occurrences v (l ++ k) = occurrences v l + occurrences v k.
Proof. unfold occurrences. by rewrite filter_app, length_app. Qed.

Lemma occurrences_Permutation v l k :
  l ≡ₚ k → occurrences v l = occurrences v k.
Proof. intros Hp. unfold occurrences. by rewrite Hp. Qed.

Lemma occurrences_replicate v m : occurrences v (replicate m v) = m.
Proof.
  induction m as [|m IH]; [done|].
  simpl. rewrite occurrences_cons, IH. by rewrite decide_True.
Qed.

Lemma occurrences_pair_le v w l :
  v ≠ w → occurrences v l + occurrences w l ≤ length l.
Proof.
  intros Hne. induction l as [|x l IH]; [done|].
  rewrite !occurrences_cons. simpl.
  repeat case_decide; simplify_eq; lia.
Qed.

Lemma majority_unique v w l :
  length l / 2 < occurrences v l → length l / 2 < occurrences w l → v = w.
Proof.
  intros Hv Hw. destruct (decide (v = w)) as [|Hne]; [done|exfalso].
  pose proof (occurrences_pair_le v w l Hne).
  pose proof (Nat.div_mod_eq (length l) 2).
  pose proof (Nat.mod_upper_bound (length l) 2). lia.
Qed.

Lemma occurrences_submseteq v l k :
  l ⊆+ k → occurrences v l ≤ occurrences v k.
Proof.
  induction 1 as [|x l k _ IH|x y l|x l k _ IH|l k m _ IH1 _ IH2];
    rewrite ?occurrences_cons; try lia.
Qed.
End Occurrences.

(** * The invariant of the collecting loop *)

Lemma deliveries_snoc tr e :
  deliveries (tr ++ [e]) =
  deliveries tr ++ match e with Deliver i => [i] | _ => [] end.
Proof. unfold deliveries. rewrite omap_app. by destruct e. Qed.

Lemma pending_init replies : pending (init replies) = replies.
Proof.
  unfold pending, init; simpl. induction replies as [|r l IH]; [done|].
  rewrite fmap_cons. simpl. by f_equal.
Qed.

Section Collector.
Context (replies : list string).
Implicit Types (tr : list event) (s : state) (v w ip : string).

Lemma arrivals_snoc tr e :
  arrivals replies (tr ++ [e]) =
  arrivals replies tr ++
    match e with
    | Deliver i => match replies !! i with Some r => [r] | None => [] end
    | _ => []
    end.
Proof.
  unfold arrivals. rewrite deliveries_snoc, omap_app.
  destruct e as [i| | |]; simpl; [|done..]. by destruct (replies !! i).
Qed.

Lemma emissions_snoc tr e :
  emissions (tr ++ [e]) = emissions tr + (if decide (e = Emit) then 1 else 0).
Proof.
  unfold emissions. rewrite filter_app, length_app. f_equal.
  rewrite filter_cons, filter_nil. by case_decide.
Qed.

Lemma pending_deliver (l : list (option string)) i ip :
  l !! i = Some (Some ip) → omap id l ≡ₚ ip :: omap id (<[i := None]> l).
Proof.
  revert i. induction l as [|x l IH]; intros [|i] Hi; simplify_eq/=; [done|].
  destruct x as [x|]; simpl; [|by apply IH].
  rewrite (IH _ Hi). apply Permutation_swap.
Qed.

Lemma exec_snoc s tr e :
  exec replies s (tr ++ [e]) =
  match exec replies s tr with Some s' => step replies s' e | None => None end.
Proof.
  revert s. induction tr as [|e' tr IH]; intros s; simpl.
  - by destruct (step replies s e).
  - destruct (step replies s e'); [apply IH|done].
Qed.

Lemma Inv_init : Inv replies [] (init replies).
Proof.
  split.
  - simpl. by rewrite length_fmap.
  - intros i r Hr. simpl. by rewrite list_lookup_fmap, Hr.
  - constructor.
  - intros i Hi. inversion Hi.
  - by rewrite pending_init.
  - intros v. simpl. by rewrite lookup_total_empty.
  - intros v. rewrite pending_init. simpl. by rewrite lookup_total_empty.
  - done.
  - done.
  - intros _ _ v. simpl. rewrite lookup_total_empty. unfold inhabitant; simpl; lia.
  - done.
  - done.
  - done.
Qed.

Lemma step_Deliver s i s' :
  step replies s (Deliver i) = Some s' →
  ∃ k ip, sending s = None ∧ iters s = S k ∧ senders s !! i = Some (Some ip) ∧
    s' = {| senders := <[i := None]> (senders s); iters := k;
            ips := <[ip := S (ips s !!! ip)]> (ips s); done := done s;
            sending := if negb (done s) && (length replies / 2 <? S (ips s !!! ip))%nat
                       then Some ip else None;
            closed := closed s; returned := returned s |}.
Proof.
  unfold step. destruct (sending s); [done|].
  destruct (iters s) as [|k]; [done|].
  destruct (senders s !! i) as [[ip|]|]; [|done..].
  intros [= <-]. by exists k, ip.
Qed.

Lemma step_Emit s s' :
  step replies s Emit = Some s' →
  ∃ ip, sending s = Some ip ∧ returned s = None ∧
    s' = {| senders := senders s; iters := iters s; ips := ips s;
            done := true; sending := None; closed := closed s;
            returned := Some ip |}.
Proof.
  unfold step. destruct (sending s) as [ip|]; [|done].
  destruct (returned s); [done|]. intros [= <-]. by exists ip.
Qed.

Lemma step_Close s s' :
  step replies s Close = Some s' →
  sending s = None ∧ iters s = 0 ∧ closed s = false ∧
    s' = {| senders := senders s; iters := iters s; ips := ips s;
            done := done s; sending := sending s; closed := true;
            returned := returned s |}.
Proof.
  unfold step. destruct (sending s) eqn:?; [done|].
  destruct (iters s) eqn:?; [|done]. destruct (closed s); [done|].
  by intros [= <-].
Qed.

Lemma step_RecvClosed s s' :
  step replies s RecvClosed = Some s' →
  closed s = true ∧ returned s = None ∧
    s' = {| senders := senders s; iters := iters s; ips := ips s;
            done := done s; sending := sending s; closed := closed s;
            returned := Some ""%string |}.
Proof.
  unfold step. destruct (closed s) eqn:?; [|done].
  destruct (returned s); [done|]. by intros [= <-].
Qed.

Lemma Inv_Deliver tr s i s' :
  Inv replies tr s → step replies s (Deliver i) = Some s' →
  Inv replies (tr ++ [Deliver i]) s'.
Proof.
  intros HI (k & ip & Hsend & Hit & Hi & ->)%step_Deliver.
  destruct HI as [Hlen Hsnd Hnd Hrg Hits Htal Hleft Hsg Hdone Hq Hcl Hz Hem].
  assert (i < length replies) as Hlt.
  { rewrite <-Hlen. eapply lookup_lt_Some, Hi. }
  destruct (lookup_lt_is_Some_2 _ _ Hlt) as [r Hr].
  pose proof (Hsnd i r Hr) as Hir. rewrite Hi in Hir.
  destruct (decide (i ∈ deliveries tr)) as [|Hnew]; [done|].
  injection Hir as ->.
  pose proof (pending_deliver _ _ _ Hi) as Hperm.
  assert (closed s = false) as Hopen.
  { destruct (closed s) eqn:E; [|done]. destruct (Hcl eq_refl); lia. }
  split; cbn [senders iters ips done sending closed returned].
  - by rewrite length_insert.
  - intros j r' Hj. rewrite deliveries_snoc.
    destruct (decide (j = i)) as [->|Hne].
    + rewrite list_lookup_insert_eq by lia.
      rewrite decide_True; [done|].
      apply elem_of_app. right. by apply list_elem_of_singleton.
    + rewrite list_lookup_insert_ne by done. rewrite (Hsnd j r' Hj).
      assert (j ∈ deliveries tr ++ [i] ↔ j ∈ deliveries tr) as Hiff.
      { rewrite elem_of_app, list_elem_of_singleton. tauto. }
      do 2 f_equal. repeat case_decide; tauto.
  - rewrite deliveries_snoc. apply NoDup_app. split_and!; [done| |apply NoDup_singleton].
    intros j Hj ->%list_elem_of_singleton. done.
  - intros j. rewrite deliveries_snoc. intros [?| ->%list_elem_of_singleton]%elem_of_app; auto.
  - unfold pending in *. simpl. rewrite Hperm in Hits. simpl in Hits. lia.
  - intros v. rewrite arrivals_snoc, Hr, occurrences_app, occurrences_cons, occurrences_nil.
    rewrite lookup_total_insert, <-Htal. repeat case_decide; simplify_eq; lia || congruence.
  - intros v. specialize (Hleft v). unfold pending in *; simpl.
    rewrite (occurrences_Permutation _ _ _ Hperm), occurrences_cons in Hleft.
    rewrite lookup_total_insert. repeat case_decide; simplify_eq; lia || congruence.
  - intros ip'. destruct (done s) eqn:Hd; cbn [negb andb]; [done|].
    destruct (_ <? _)%nat eqn:Hc; [|done]. intros [= <-]. apply Nat.ltb_lt in Hc.
    rewrite lookup_total_insert_eq. split_and!; try done.
    destruct (returned s) as [w|] eqn:Hw; [|done].
    destruct (Hz w eq_refl eq_refl); congruence.
  - intros Hd. destruct (Hdone Hd) as (w & Hw & Hmaj). exists w. split; [done|].
    rewrite lookup_total_insert. case_decide; simplify_eq; lia.
  - intros Hd. rewrite Hd. cbn [negb andb]. destruct (_ <? _)%nat eqn:Hc; [done|]. intros _ v.
    apply Nat.ltb_ge in Hc. rewrite lookup_total_insert.
    case_decide; simplify_eq; [lia|]. by apply Hq.
  - congruence.
  - intros w Hw Hd. destruct (Hz w Hw Hd). congruence.
  - rewrite emissions_snoc. rewrite decide_False by done. lia.
Qed.

Lemma Inv_Emit tr s s' :
  Inv replies tr s → step replies s Emit = Some s' →
  Inv replies (tr ++ [Emit]) s'.
Proof.
  intros HI (ip & Hsend & Hret & ->)%step_Emit.
  destruct HI as [Hlen Hsnd Hnd Hrg Hits Htal Hleft Hsg Hdone Hq Hcl Hz Hem].
  destruct (Hsg ip Hsend) as (Hd & _ & Hopen & Hmaj).
  split; cbn [senders iters ips done sending closed returned];
    rewrite ?deliveries_snoc, ?arrivals_snoc, ?app_nil_r; try done.
  - intros _. by exists ip.
  - intros Hc. destruct (Hcl Hc). congruence.
  - rewrite emissions_snoc, Hem, Hd. by rewrite decide_True.
Qed.

Lemma Inv_Close tr s s' :
  Inv replies tr s → step replies s Close = Some s' →
  Inv replies (tr ++ [Close]) s'.
Proof.
  intros HI (Hsend & Hit & Hopen & ->)%step_Close.
  destruct HI as [Hlen Hsnd Hnd Hrg Hits Htal Hleft Hsg Hdone Hq Hcl Hz Hem].
  split; cbn [senders iters ips done sending closed returned];
    rewrite ?deliveries_snoc, ?arrivals_snoc, ?app_nil_r; try done.
  - intros ip Hip. congruence.
  - intros w Hw Hd. destruct (Hz w Hw Hd). congruence.
  - rewrite emissions_snoc, Hem. rewrite decide_False by done. lia.
Qed.

Lemma Inv_RecvClosed tr s s' :
  Inv replies tr s → step replies s RecvClosed = Some s' →
  Inv replies (tr ++ [RecvClosed]) s'.
Proof.
  intros HI (Hc & Hret & ->)%step_RecvClosed.
  destruct HI as [Hlen Hsnd Hnd Hrg Hits Htal Hleft Hsg Hdone Hq Hcl Hz Hem].
  destruct (Hcl Hc) as [Hit Hsend].
  split; cbn [senders iters ips done sending closed returned];
    rewrite ?deliveries_snoc, ?arrivals_snoc, ?app_nil_r; try done.
  - intros ip Hip. congruence.
  - intros Hd. destruct (Hdone Hd) as (w & ? & _). congruence.
  - intros w [= <-] _. done.
  - rewrite emissions_snoc, Hem. rewrite decide_False by done. lia.
Qed.

Lemma Inv_step tr s e s' :
  Inv replies tr s → step replies s e = Some s' → Inv replies (tr ++ [e]) s'.
Proof.
  destruct e; eauto using Inv_Deliver, Inv_Emit, Inv_Close, Inv_RecvClosed.
Qed.

Lemma run_Inv tr s : run replies tr = Some s → Inv replies tr s.
Proof.
  unfold run. revert s. induction tr as [|e tr IH] using rev_ind; intros s.
  - intros [= <-]. apply Inv_init.
  - rewrite exec_snoc. destruct (exec replies (init replies) tr) as [s0|]; [|done].
    intros Hstep. eapply Inv_step; eauto.
Qed.

(** Every event uses up fuel, so schedules are bounded. *)
Lemma step_fuel s e s' :
  step replies s e = Some s' → fuel s' < fuel s.
Proof.
  destruct e.
  - intros (k & ip & Hsend & Hit & _ & ->)%step_Deliver. unfold fuel.
    cbn [senders iters ips done sending closed returned]. rewrite Hsend, Hit.
    destruct (returned s), (closed s); try lia; destruct (_ && _); lia.
  - intros (ip & Hsend & Hret & ->)%step_Emit. unfold fuel.
    cbn [senders iters ips done sending closed returned]. rewrite Hsend, Hret. lia.
  - intros (Hsend & Hit & Hopen & ->)%step_Close. unfold fuel.
    cbn [senders iters ips done sending closed returned]. rewrite Hopen. lia.
  - intros (Hc & Hret & ->)%step_RecvClosed. unfold fuel.
    cbn [senders iters ips done sending closed returned]. rewrite Hret.
    destruct (sending s); lia.
Qed.

Lemma exec_fuel s tr s' :
  exec replies s tr = Some s' → fuel s' + length tr ≤ fuel s.
Proof.
  revert s. induction tr as [|e tr IH]; intros s; simpl.
  - intros [= <-]. lia.
  - destruct (step replies s e) as [s1|] eqn:Hs; [|done]. intros Hx.
    apply IH in Hx. apply step_fuel in Hs. lia.
Qed.

Lemma run_bounded tr s :
  run replies tr = Some s → length tr ≤ length replies + 3.
Proof.
  intros Hx%exec_fuel. unfold fuel at 2 in Hx. simpl in Hx. lia.
Qed.

(** As long as the caller waits or a reply is outstanding, some event is
    possible. *)
Lemma pending_lookup s r :
  r ∈ pending s → ∃ i, senders s !! i = Some (Some r).
Proof.
  unfold pending. intros (x & Hx & Heq)%list_elem_of_omap. simpl in Heq. subst x.
  by apply list_elem_of_lookup_1 in Hx.
Qed.

Lemma progress tr s :
  Inv replies tr s → returned s = None ∨ pending s ≠ [] →
  ∃ e s', step replies s e = Some s'.
Proof.
  intros HI Hwork.
  destruct (sending s) as [ip|] eqn:Hsend.
  { destruct (inv_sending _ _ _ HI ip Hsend) as (_ & Hret & _).
    exists Emit. unfold step. rewrite Hsend, Hret. eauto. }
  destruct (pending s) as [|r rest] eqn:Hp.
  - pose proof (inv_iters _ _ _ HI) as Hit. rewrite Hp in Hit. simpl in Hit.
    destruct (closed s) eqn:Hc.
    + destruct Hwork as [Hret|]; [|done].
      exists RecvClosed. unfold step. rewrite Hc, Hret. eauto.
    + exists Close. unfold step. rewrite Hsend, Hit, Hc. eauto.
  - pose proof (inv_iters _ _ _ HI) as Hit. rewrite Hp in Hit. simpl in Hit.
    destruct (pending_lookup s r) as [i Hi]; [rewrite Hp; left|].
    exists (Deliver i). unfold step. rewrite Hsend, Hit, Hi. eauto.
Qed.

Lemma quiescent_end tr s :
  Inv replies tr s → quiescent replies s →
  pending s = [] ∧ is_Some (returned s).
Proof.
  intros HI Hq.
  destruct (pending s) as [|r rest] eqn:Hp.
  - split; [done|]. destruct (returned s) eqn:Hret; [eauto|].
    destruct (progress tr s HI) as (e & s' & Hs); [by left|].
    rewrite Hq in Hs. done.
  - destruct (progress tr s HI) as (e & s' & Hs).
    { right. by rewrite Hp. }
    rewrite Hq in Hs. done.
Qed.

Lemma tally_le tr s v :
  Inv replies tr s → ips s !!! v ≤ occurrences v replies.
Proof. intros HI. pose proof (inv_left _ _ _ HI v). lia. Qed.

Lemma tally_final tr s v :
  Inv replies tr s → pending s = [] → ips s !!! v = occurrences v replies.
Proof.
  intros HI Hp. pose proof (inv_left _ _ _ HI v) as H. rewrite Hp in H.
  rewrite occurrences_nil in H. lia.
Qed.

(** A count never exceeds the length of the slice, so the Go [int] of the map
    cannot wrap around. *)
Lemma tally_bounded tr s v :
  Inv replies tr s → ips s !!! v ≤ length replies.
Proof.
  intros HI. etrans; [by eapply tally_le|]. unfold occurrences.
  apply length_filter.
Qed.

(** ** What the caller receives *)

Lemma threshold_lt m : threshold replies ≤ m ↔ length replies / 2 < m.
Proof. unfold threshold. lia. Qed.

Lemma returned_cases tr s w :
  Inv replies tr s → returned s = Some w →
  (done s = true ∧ length replies / 2 < ips s !!! w) ∨
  (done s = false ∧ closed s = true ∧ pending s = [] ∧ w = ""%string
   ∧ ∀ v, occurrences v replies ≤ length replies / 2).
Proof.
  intros HI Hw. destruct (done s) eqn:Hd.
  - left. split; [done|]. destruct (inv_done _ _ _ HI Hd) as (w' & Hw' & Hmaj).
    congruence.
  - right. destruct (inv_zero _ _ _ HI w Hw Hd) as [Hc ->].
    destruct (inv_closed _ _ _ HI Hc) as [Hit Hsend].
    assert (pending s = []) as Hp.
    { apply length_zero_iff_nil. by rewrite <-(inv_iters _ _ _ HI). }
    split_and!; try done. intros v.
    rewrite <-(tally_final tr s v HI Hp). by apply (inv_quiet _ _ _ HI).
Qed.

Lemma majority_returns v :
  threshold replies ≤ occurrences v replies → always_returns replies v.
Proof.
  intros Hmaj%threshold_lt tr s Hrun. pose proof (run_Inv _ _ Hrun) as HI.
  split_and!.
  - by eapply run_bounded.
  - intros Hret. eapply progress; eauto.
  - intros w Hw.
    destruct (returned_cases _ _ _ HI Hw) as [[_ Hw']|(_ & _ & _ & _ & Hno)].
    + pose proof (tally_le tr s w HI).
      apply (majority_unique w v replies); lia.
    + specialize (Hno v). lia.
Qed.

Lemma no_majority_no_emission tr s :
  no_majority replies → run replies tr = Some s →
  emissions tr = 0 ∧ sending s = None ∧ done s = false.
Proof.
  intros Hno Hrun. pose proof (run_Inv _ _ Hrun) as HI.
  assert (∀ w, ¬ length replies / 2 < ips s !!! w) as Hlow.
  { intros w Hw. pose proof (tally_le tr s w HI). specialize (Hno w).
    apply threshold_lt in Hw. lia. }
  assert (done s = false) as Hd.
  { destruct (done s) eqn:Hd; [|done].
    destruct (inv_done _ _ _ HI Hd) as (w & _ & Hw). by apply Hlow in Hw. }
  split_and!; [|  |done].
  - by rewrite (inv_emits _ _ _ HI), Hd.
  - destruct (sending s) as [ip|] eqn:Hs; [|done].
    destruct (inv_sending _ _ _ HI ip Hs) as (_ & _ & _ & Hw). by apply Hlow in Hw.
Qed.

End Collector.

(** * The quorum *)

(** C1: if some value [v] is the reply of at least [floor(N/2)+1] of the [N]
    resolvers, the entry point returns [v] under every schedule, that is for
    every order in which the replies arrive; so a pool replying "1.2.3.4",
    "1.2.3.4", "5.6.7.8" (in any order) yields "1.2.3.4", and a pool of
    eighteen with ten "9.9.9.9" and eight empty replies yields "9.9.9.9". *)
Theorem quorum_correctness :
  (∀ replies v, threshold replies ≤ occurrences v replies →
     always_returns replies v) ∧
  (∀ replies, replies ≡ₚ ["1.2.3.4"; "1.2.3.4"; "5.6.7.8"]%string →
     always_returns replies "1.2.3.4") ∧
  (∀ replies, replies ≡ₚ replicate 10 "9.9.9.9"%string ++ replicate 8 ""%string →
     always_returns replies "9.9.9.9").
Proof.
  split_and!.
  - apply majority_returns.
  - intros replies Hp. apply majority_returns. unfold threshold.
    rewrite (occurrences_Permutation _ _ _ Hp), Hp. vm_compute. lia.
  - intros replies Hp. apply majority_returns. unfold threshold.
    rewrite (occurrences_Permutation _ _ _ Hp), Hp. vm_compute. lia.
Qed.

Lemma quorum_correctness_witness :
  threshold ["5.6.7.8"; "1.2.3.4"; "1.2.3.4"]%string
    ≤ occurrences "1.2.3.4"%string ["5.6.7.8"; "1.2.3.4"; "1.2.3.4"]%string
  ∧ always_returns ["5.6.7.8"; "1.2.3.4"; "1.2.3.4"]%string "1.2.3.4".
Proof.
  split; [vm_compute; lia|].
  apply (proj1 quorum_correctness). vm_compute; lia.
Defined.

Lemma tally_lookup_lt (m : gmap string nat) (b : nat) v :
  0 < b → map_Forall (λ _ c, c < b) m → m !!! v < b.
Proof.
  intros Hb Hall. rewrite lookup_total_alt.
  destruct (m !! v) as [c|] eqn:Hc; simpl; [by eapply Hall|done].
Qed.

(** C2: when the collector hands a value to the caller, the tally of that
    value is at least [floor(N/2)+1] at that moment (and is the number of its
    arrivals so far); and if, once every reply has been tallied, no count
    reaches the threshold, then no run of the pool ever emits a value. *)
Theorem emission_needs_quorum replies :
  (∀ tr s s', run replies tr = Some s → step replies s Emit = Some s' →
     ∃ ip, sending s = Some ip ∧ returned s' = Some ip
           ∧ threshold replies ≤ ips s !!! ip
           ∧ ips s !!! ip = occurrences ip (arrivals replies tr)) ∧
  (∀ tr s, run replies tr = Some s → pending s = [] →
     map_Forall (λ _ c, c < threshold replies) (ips s) →
     ∀ tr' s', run replies tr' = Some s' → emissions tr' = 0).
Proof.
  split.
  - intros tr s s' Hrun (ip & Hsend & _ & ->)%step_Emit.
    pose proof (run_Inv _ _ _ Hrun) as HI.
    destruct (inv_sending _ _ _ HI ip Hsend) as (_ & _ & _ & Hmaj).
    exists ip. split_and!; [done|done|by apply threshold_lt|apply (inv_tally _ _ _ HI)].
  - intros tr s Hrun Hp Hall tr' s' Hrun'.
    pose proof (run_Inv _ _ _ Hrun) as HI.
    apply (no_majority_no_emission replies tr' s'); [|done].
    intros v. rewrite <-(tally_final replies tr s v HI Hp).
    apply tally_lookup_lt; [unfold threshold; lia|done].
Qed.

Lemma emission_needs_quorum_witness :
  (let replies := ["1.2.3.4"; "5.6.7.8"; "1.2.3.4"]%string in
   ∃ s s', run replies [Deliver 2; Deliver 0] = Some s
     ∧ step replies s Emit = Some s'
     ∧ ∃ ip, sending s = Some ip ∧ returned s' = Some ip
             ∧ threshold replies ≤ ips s !!! ip
             ∧ ips s !!! ip
               = occurrences ip (arrivals replies [Deliver 2; Deliver 0])) ∧
  (let replies := ["1.1.1.1"; "2.2.2.2"; "1.1.1.1"; "2.2.2.2"]%string in
   let tr := [Deliver 3; Deliver 2; Deliver 1; Deliver 0] in
   ∃ s s', run replies tr = Some s ∧ pending s = []
     ∧ map_Forall (λ _ c, c < threshold replies) (ips s)
     ∧ run replies (tr ++ [Close; RecvClosed]) = Some s'
     ∧ emissions (tr ++ [Close; RecvClosed]) = 0).
Proof.
  split.
  - intros replies. eexists _, _.
    split; [vm_compute; reflexivity|]. split; [vm_compute; reflexivity|].
    eapply (proj1 (emission_needs_quorum replies) [Deliver 2; Deliver 0]);
      vm_compute; reflexivity.
  - intros replies tr. eexists _, _.
    split; [vm_compute; reflexivity|]. split; [vm_compute; reflexivity|].
    split; [apply (bool_decide_unpack _); vm_compute; exact I|].
    split; [vm_compute; reflexivity|].
    eapply (proj2 (emission_needs_quorum replies) tr).
    + vm_compute; reflexivity.
    + vm_compute; reflexivity.
    + apply (bool_decide_unpack _); vm_compute; exact I.
    + vm_compute; reflexivity.
Defined.

(** C7: a run contains at most one emission; once [done] is set, a later
    delivery, whatever count it produces, leaves the collector unparked and
    [done] set. *)
Theorem at_most_one_emission replies tr s :
  run replies tr = Some s →
  emissions tr ≤ 1 ∧
  (∀ i s', done s = true → step replies s (Deliver i) = Some s' →
     sending s' = None ∧ done s' = true).
Proof.
  intros Hrun. pose proof (run_Inv _ _ _ Hrun) as HI. split.
  - rewrite (inv_emits _ _ _ HI). destruct (done s); lia.
  - intros i s' Hd (k & ip & _ & _ & _ & ->)%step_Deliver.
    cbn [sending done]. by rewrite Hd.
Qed.

Lemma at_most_one_emission_witness :
  let replies := ["1.2.3.4"; "1.2.3.4"; "1.2.3.4"]%string in
  let tr := [Deliver 1; Deliver 0; Emit; Deliver 2; Close] in
  ∃ s, run replies tr = Some s ∧ emissions tr ≤ 1 ∧
    (∀ i s', done s = true → step replies s (Deliver i) = Some s' →
       sending s' = None ∧ done s' = true).
Proof.
  intros replies tr. eexists. split; [vm_compute; reflexivity|].
  apply (at_most_one_emission replies tr). vm_compute; reflexivity.
Defined.

(** C4: when no value reaches the threshold, the entry point returns under
    every schedule, and what it returns is the empty string. *)
Theorem no_quorum_returns_empty replies :
  no_majority replies → always_returns replies "".
Proof.
  intros Hno tr s Hrun. pose proof (run_Inv _ _ _ Hrun) as HI.
  split_and!.
  - by eapply run_bounded.
  - intros Hret. eapply progress; eauto.
  - intros w Hw.
    destruct (returned_cases _ _ _ _ HI Hw) as [[_ Hw']|(_ & _ & _ & -> & _)];
      [|done].
    pose proof (tally_le replies tr s w HI). specialize (Hno w).
    apply threshold_lt in Hw'. lia.
Qed.

Ltac count_replies :=
  intros ?; unfold occurrences, threshold; cbn [length];
  rewrite ?filter_cons, ?filter_nil; repeat case_decide; simplify_eq; vm_compute; lia.

Lemma no_quorum_returns_empty_witness :
  let replies := ["1.1.1.1"; "2.2.2.2"; "3.3.3.3"; "4.4.4.4"]%string in
  no_majority replies ∧ always_returns replies "".
Proof.
  intros replies.
  assert (no_majority replies) as Hno by (subst replies; count_replies).
  split; [exact Hno|]. exact (no_quorum_returns_empty replies Hno).
Defined.

(** C3, as stated, fails: with four distinct replies no value has a
    majority, yet the schedule that delivers all four, closes [result] and
    lets the caller receive from the closed channel makes the call return. *)
Lemma no_majority_does_not_block :
  ¬ (no_majority ["1.1.1.1"; "2.2.2.2"; "3.3.3.3"; "4.4.4.4"]%string →
     (∀ tr s, run ["1.1.1.1"; "2.2.2.2"; "3.3.3.3"; "4.4.4.4"]%string tr = Some s →
        emissions tr = 0)
     ∧ blocks_forever ["1.1.1.1"; "2.2.2.2"; "3.3.3.3"; "4.4.4.4"]%string).
Proof.
  intros Hclaim. destruct Hclaim as [_ Hblocks]; [count_replies|].
  assert (∃ s, run ["1.1.1.1"; "2.2.2.2"; "3.3.3.3"; "4.4.4.4"]%string
                 [Deliver 3; Deliver 0; Deliver 2; Deliver 1; Close; RecvClosed]
               = Some s ∧ returned s = Some ""%string) as (s & Hrun & Hret).
  { eexists. split; vm_compute; reflexivity. }
  apply Hblocks in Hrun. congruence.
Qed.

(** C3, amended: when no value occurs more than [N/2] times, no run emits a
    value and the collector never parks at [result <- ip]; the call does not
    block: runs are bounded, some event is possible as long as the caller
    waits, and the caller receives the empty string from the closed channel,
    after every reply has been tallied. *)
Theorem no_majority_closes_and_returns_empty replies tr s :
  no_majority replies → run replies tr = Some s →
  emissions tr = 0 ∧ sending s = None ∧
  length tr ≤ length replies + 3 ∧
  (returned s = None → ∃ e s', step replies s e = Some s') ∧
  (∀ w, returned s = Some w →
     w = ""%string ∧ closed s = true ∧ pending s = []).
Proof.
  intros Hno Hrun. pose proof (run_Inv _ _ _ Hrun) as HI.
  destruct (no_majority_no_emission replies tr s Hno Hrun) as (Hem & Hsend & Hd).
  split_and!; try done.
  - by eapply run_bounded.
  - intros Hret. eapply progress; eauto.
  - intros w Hw.
    destruct (returned_cases _ _ _ _ HI Hw) as [[? _]|(_ & ? & ? & ? & _)];
      [congruence|done].
Qed.

Lemma no_majority_closes_and_returns_empty_witness :
  let replies := ["1.1.1.1"; "2.2.2.2"; "1.1.1.1"; "2.2.2.2"]%string in
  let tr := [Deliver 0; Deliver 1; Deliver 2; Deliver 3; Close; RecvClosed] in
  ∃ s, no_majority replies ∧ run replies tr = Some s ∧
    returned s = Some ""%string ∧
    emissions tr = 0 ∧ sending s = None ∧
    length tr ≤ length replies + 3 ∧
    (returned s = None → ∃ e s', step replies s e = Some s') ∧
    (∀ w, returned s = Some w →
       w = ""%string ∧ closed s = true ∧ pending s = []).
Proof.
  intros replies tr.
  assert (no_majority replies) as Hno by (subst replies; count_replies).
  eexists. split; [exact Hno|]. split; [vm_compute; reflexivity|].
  split; [reflexivity|].
  apply (no_majority_closes_and_returns_empty replies tr _ Hno).
  vm_compute; reflexivity.
Defined.

(** C6: when the empty string is the reply of at least [floor(N/2)+1]
    resolvers, the entry point returns the empty string, and it does so as
    the emitted winner: [done] is set, the run holds one emission and the
    tally of the empty string has reached the threshold. *)
Theorem empty_string_wins replies :
  threshold replies ≤ occurrences ""%string replies →
  always_returns replies "" ∧
  (∀ tr s, run replies tr = Some s → is_Some (returned s) →
     done s = true ∧ emissions tr = 1 ∧ threshold replies ≤ ips s !!! ""%string).
Proof.
  intros Hmaj. split; [by apply majority_returns|].
  intros tr s Hrun [w Hw]. pose proof (run_Inv _ _ _ Hrun) as HI.
  destruct (majority_returns _ _ Hmaj tr s Hrun) as (_ & _ & Heq).
  pose proof (Heq w Hw) as ->.
  destruct (returned_cases _ _ _ _ HI Hw) as [[Hd Hc]|(_ & _ & _ & _ & Hno)].
  - split_and!; [done| |by apply threshold_lt].
    by rewrite (inv_emits _ _ _ HI), Hd.
  - specialize (Hno ""%string). apply threshold_lt in Hmaj. lia.
Qed.

Lemma empty_string_wins_witness :
  let replies := [""; "1.2.3.4"; ""]%string in
  threshold replies ≤ occurrences ""%string replies ∧
  always_returns replies "" ∧
  (∀ tr s, run replies tr = Some s → is_Some (returned s) →
     done s = true ∧ emissions tr = 1 ∧ threshold replies ≤ ips s !!! ""%string).
Proof.
  intros replies. split; [vm_compute; lia|].
  apply (empty_string_wins replies). vm_compute; lia.
Defined.

Lemma omap_lookup_seq {A} (l : list A) :
  omap (λ i, l !! i) (seq 0 (length l)) = l.
Proof.
  induction l as [|x l IH] using rev_ind; [done|].
  rewrite length_app, Nat.add_1_r, seq_S, omap_app. simpl.
  rewrite list_lookup_middle by done. simpl. f_equal.
  rewrite <-IH at 2. apply list_omap_ext, Forall_Forall2_diag, Forall_seq.
  intros i Hi. apply lookup_app_l. lia.
Qed.

(** C8: no goroutine's reply is received twice and the tally counts exactly
    the arrivals; as long as some reply has not been received an event is
    possible, whether or not a winner has been emitted, and runs are bounded;
    when nothing more can happen every goroutine has delivered, the arrivals
    are the replies up to order, and the tally counts every reply. *)
Theorem every_reply_tallied_once replies tr s :
  run replies tr = Some s →
  NoDup (deliveries tr) ∧
  (∀ v, ips s !!! v = occurrences v (arrivals replies tr)) ∧
  length tr ≤ length replies + 3 ∧
  (∀ i, i < length replies → i ∉ deliveries tr →
     ∃ e s', step replies s e = Some s') ∧
  (quiescent replies s →
     deliveries tr ≡ₚ seq 0 (length replies) ∧
     arrivals replies tr ≡ₚ replies ∧
     ∀ v, ips s !!! v = occurrences v replies).
Proof.
  intros Hrun. pose proof (run_Inv _ _ _ Hrun) as HI.
  assert (∀ i, i < length replies → i ∉ deliveries tr → pending s ≠ []) as Hleft.
  { intros i Hi Hni Hp. destruct (lookup_lt_is_Some_2 _ _ Hi) as [r Hr].
    pose proof (inv_senders _ _ _ HI i r Hr) as Hs.
    rewrite decide_False in Hs by done.
    assert (r ∈ pending s) as Hin; [|rewrite Hp in Hin; by apply elem_of_nil in Hin].
    unfold pending. apply list_elem_of_omap. exists (Some r).
    split; [by eapply list_elem_of_lookup_2|done]. }
  split_and!.
  - apply (inv_nodup _ _ _ HI).
  - apply (inv_tally _ _ _ HI).
  - by eapply run_bounded.
  - intros i Hi Hni. eapply progress; eauto.
  - intros Hq. destruct (quiescent_end _ _ _ HI Hq) as [Hp _].
    assert (deliveries tr ≡ₚ seq 0 (length replies)) as Hperm.
    { apply NoDup_Permutation; [apply (inv_nodup _ _ _ HI)|apply NoDup_seq|].
      intros i. rewrite elem_of_seq. split.
      - intros Hi%(inv_range _ _ _ HI). lia.
      - intros [_ Hi]. destruct (decide (i ∈ deliveries tr)) as [|Hni]; [done|].
        by destruct (Hleft i Hi Hni). }
    split_and!; [done| |intros v; by eapply tally_final].
    unfold arrivals. by rewrite Hperm, omap_lookup_seq.
Qed.

Lemma every_reply_tallied_once_witness :
  let replies := ["1.2.3.4"; "5.6.7.8"; "1.2.3.4"]%string in
  let tr := [Deliver 2; Deliver 0; Emit; Deliver 1; Close] in
  ∃ s, run replies tr = Some s ∧
  NoDup (deliveries tr) ∧
  (∀ v, ips s !!! v = occurrences v (arrivals replies tr)) ∧
  length tr ≤ length replies + 3 ∧
  (∀ i, i < length replies → i ∉ deliveries tr →
     ∃ e s', step replies s e = Some s') ∧
  (quiescent replies s →
     deliveries tr ≡ₚ seq 0 (length replies) ∧
     arrivals replies tr ≡ₚ replies ∧
     ∀ v, ips s !!! v = occurrences v replies).
Proof.
  intros replies tr. eexists. split; [vm_compute; reflexivity|].
  apply (every_reply_tallied_once replies tr). vm_compute; reflexivity.
Defined.

(** * The resolvers *)

(** ** The HTTP resolvers *)

(** C9: when the GET and the read of the body succeed, [urlGetReadAll]
    returns the body with [strings.TrimSpace] applied and nothing else, for
    every body; when the GET fails or the read fails, it returns the empty
    string. *)
Theorem urlGetReadAll_result (TrimSpace : string → string) (Get : web) url :
  (∀ resp bytes, Get url = Get_ok resp → Body resp = ReadAll_ok bytes →
     urlGetReadAll TrimSpace Get url = TrimSpace bytes) ∧
  (Get url = Get_err → urlGetReadAll TrimSpace Get url = ""%string) ∧
  (∀ resp, Get url = Get_ok resp → Body resp = ReadAll_err →
     urlGetReadAll TrimSpace Get url = ""%string).
Proof.
  unfold urlGetReadAll. split_and!.
  - intros resp bytes -> ->. done.
  - intros ->. done.
  - intros resp -> ->. done.
Qed.

Lemma urlGetReadAll_result_witness :
  let Get : web := λ _,
    Get_ok {| StatusCode := 200; Body := ReadAll_ok "  not an address  " |} in
  urlGetReadAll trimASCII Get "https://icanhazip.com" = "not an address"%string.
Proof.
  intros Get.
  exact (proj1 (urlGetReadAll_result trimASCII Get "https://icanhazip.com")
           _ _ eq_refl eq_refl).
Defined.

Lemma occurrences_fmap_const {A} (f : A → string) (b : string) (l : list A) :
  (∀ x, x ∈ l → f x = b) → occurrences b (f <$> l) = length l.
Proof.
  induction l as [|x l IH]; intros Hf; [done|].
  rewrite fmap_cons, occurrences_cons, decide_True by (apply Hf; left).
  simpl. f_equal. apply IH. intros y Hy. apply Hf. by right.
Qed.

(** C10: the status code of a delivered response plays no part: the reply
    is the trimmed body for every code; hence when more than half of the
    urls serve the same body, with any status codes, the entry point returns
    that body, trimmed. *)
Theorem status_code_is_ignored (TrimSpace : string → string) (Get : web) :
  (∀ url code bytes,
     Get url = Get_ok {| StatusCode := code; Body := ReadAll_ok bytes |} →
     urlGetReadAll TrimSpace Get url = TrimSpace bytes) ∧
  (∀ served bytes,
     NoDup served → Forall (λ u, u ∈ urls) served →
     threshold (HTTP_replies TrimSpace Get) ≤ length served →
     (∀ u, u ∈ served → ∃ code,
        Get u = Get_ok {| StatusCode := code; Body := ReadAll_ok bytes |}) →
     always_returns (HTTP_replies TrimSpace Get) (TrimSpace bytes)).
Proof.
  assert (∀ url code bytes,
     Get url = Get_ok {| StatusCode := code; Body := ReadAll_ok bytes |} →
     urlGetReadAll TrimSpace Get url = TrimSpace bytes) as Hbody.
  { intros url code bytes Hget. unfold urlGetReadAll. by rewrite Hget. }
  split; [done|].
  intros served bytes Hnd Hsub Hmaj Hserved. apply majority_returns.
  etrans; [exact Hmaj|]. unfold HTTP_replies.
  rewrite <-(occurrences_fmap_const (urlGetReadAll TrimSpace Get)
               (TrimSpace bytes) served).
  - apply occurrences_submseteq, fmap_submseteq, NoDup_submseteq; [done|].
    by apply Forall_forall.
  - intros u Hu. destruct (Hserved u Hu) as [code Hget]. by eapply Hbody.
Qed.

Lemma status_code_is_ignored_witness :
  let Get : web := λ u,
    if bool_decide (u ∈ take 10 urls)
    then Get_ok {| StatusCode := 503; Body := ReadAll_ok " no healthy upstream " |}
    else Get_err in
  always_returns (HTTP_replies trimASCII Get) (trimASCII " no healthy upstream ")
  ∧ trimASCII " no healthy upstream " = "no healthy upstream"%string.
Proof.
  intros Get. split; [|reflexivity].
  apply (proj2 (status_code_is_ignored trimASCII Get) (take 10 urls)).
  - apply (bool_decide_unpack _). vm_compute. exact I.
  - apply (bool_decide_unpack _). vm_compute. exact I.
  - vm_compute. lia.
  - intros u Hu. exists 503%Z. unfold Get. by rewrite bool_decide_eq_true_2.
Defined.

(** ** The DNS resolvers

    [ParseIP] is [net.ParseIP], which yields nil for text that is not an
    address; [String6] prints what is not an IPv4 address. *)

Section DNSResolvers.
Context (ParseIP : string → IP) (String6 : IP → string).

(** C5, at the failing input: a reply without answer records makes each of
    the three resolvers panic at [in.Answer[0]], and with it the program. *)
Theorem dns_askers_panic_without_answer :
  GoogleDNS ParseIP String6 no_answer = Panic ∧
  OpenDNS String6 no_answer = Panic ∧
  AkamaiDNS String6 no_answer = Panic ∧
  DNS_replies ParseIP String6 no_answer = None.
Proof. by split_and!. Qed.

Lemma dns_askers_transport_error :
  let failing : resolver := λ _ _ _, Exchange_err in
  GoogleDNS ParseIP String6 failing = Return "" ∧
  OpenDNS String6 failing = Return "" ∧
  AkamaiDNS String6 failing = Return "" ∧
  DNS_replies ParseIP String6 failing = Some [""; ""; ""]%string.
Proof. by split_and!. Qed.

Lemma dns_askers_unexpected_type rest :
  let other : resolver := λ _ _ _, Exchange_ok {| Answer := RR_other :: rest |} in
  GoogleDNS ParseIP String6 other = Return "" ∧
  OpenDNS String6 other = Return "" ∧
  AkamaiDNS String6 other = Return "".
Proof. by split_and!. Qed.

Lemma To4_nil : To4 [] = [].
Proof. reflexivity. Qed.

Example To4_ipv6 :
  To4 [x20; x01; x0d; xb8; x00; x00; x00; x00;
       x00; x00; x00; x00; x00; x00; x00; x01] = [].
Proof. reflexivity. Qed.

(** Text that is no address at all ([ParseIP] yields nil) and the text of
    an IPv6 address (sixteen bytes without the IPv4 prefix) both end in
    [To4() = nil]; the resolver then returns ["<nil>"]. *)
Lemma GoogleDNS_not_an_address t rest more :
  To4 (ParseIP t) = [] →
  GoogleDNS ParseIP String6
    (λ _ _ _, Exchange_ok {| Answer := RR_TXT (t :: more) :: rest |})
  = Return "<nil>".
Proof. intros Hnil. unfold GoogleDNS. simpl. by rewrite Hnil. Qed.

Lemma GoogleDNS_empty_txt rest :
  GoogleDNS ParseIP String6 (λ _ _ _, Exchange_ok {| Answer := RR_TXT [] :: rest |})
  = Panic.
Proof. reflexivity. Qed.

Lemma OpenDNS_nil_address rest :
  OpenDNS String6 (λ _ _ _, Exchange_ok {| Answer := RR_A [] :: rest |})
  = Return "<nil>".
Proof. reflexivity. Qed.

Lemma OpenDNS_address a b c d rest :
  OpenDNS String6 (λ _ _ _, Exchange_ok {| Answer := RR_A [a; b; c; d] :: rest |})
  = Return (uitoa a +:+ "." +:+ uitoa b +:+ "." +:+ uitoa c +:+ "." +:+ uitoa d).
Proof. reflexivity. Qed.

Example OpenDNS_example :
  OpenDNS String6 (λ _ _ _, Exchange_ok {| Answer := [RR_A [xc0; x00; x02; x2a]] |})
  = Return "192.0.2.42".
Proof. reflexivity. Qed.

End DNSResolvers.

(** * Further properties of the collecting loop *)

Lemma occurrences_not_elem {A} `{EqDecision A} (v : A) (l : list A) :
  v ∉ l → occurrences v l = 0.
Proof.
  induction l as [|x l IH]; [done|].
  rewrite not_elem_of_cons, occurrences_cons. intros [Hne Hl].
  rewrite decide_False by done. by rewrite IH.
Qed.

Lemma occurrences_elem {A} `{EqDecision A} (v : A) (l : list A) :
  0 < occurrences v l → v ∈ l.
Proof.
  intros Hpos. destruct (decide (v ∈ l)) as [|Hni]; [done|].
  rewrite (occurrences_not_elem v l Hni) in Hpos. lia.
Qed.

Lemma occurrences_fmap {A} (f : A → string) (w : string) (l : list A) :
  occurrences w (f <$> l) = length (filter (λ x, f x = w) l).
Proof.
  induction l as [|x l IH]; [done|].
  rewrite fmap_cons, occurrences_cons, filter_cons, IH.
  by destruct (decide (f x = w)).
Qed.

Lemma pending_nil_senders s : pending s = [] → Forall (λ o, o = None) (senders s).
Proof.
  unfold pending. induction (senders s) as [|[r|] l IH]; simpl; [done|done|].
  intros Hl. constructor; auto.
Qed.

Section Schedules.
Context (replies : list string).
Implicit Types (tr : list event) (s : state) (v w ip : string).

Lemma run_snoc tr s e s' :
  run replies tr = Some s → step replies s e = Some s' →
  run replies (tr ++ [e]) = Some s'.
Proof. unfold run. intros Hrun Hstep. by rewrite exec_snoc, Hrun. Qed.

Lemma no_majority_always_empty :
  no_majority replies → always_returns replies "".
Proof.
  intros Hno tr s Hrun. pose proof (run_Inv _ _ _ Hrun) as HI.
  split_and!; [by eapply run_bounded|intros; eapply progress; eauto|].
  intros w Hw.
  destruct (returned_cases _ _ _ _ HI Hw) as [[_ Hmaj]|(_ & _ & _ & -> & _)];
    [|done].
  pose proof (tally_le _ _ _ w HI). specialize (Hno w).
  apply threshold_lt in Hmaj. lia.
Qed.

(** Either some value has a quorum, and it can be computed, or none has. *)
Lemma majority_or_none :
  {v | threshold replies ≤ occurrences v replies} + {no_majority replies}.
Proof.
  destruct (decide (Exists (λ v, threshold replies ≤ occurrences v replies) replies))
    as [Hex|Hno].
  - left. apply Exists_exists in Hex.
    destruct (list_find (λ v, threshold replies ≤ occurrences v replies) replies)
      as [[i v]|] eqn:Hf.
    + exists v. by apply list_find_Some in Hf as (_ & ? & _).
    + exfalso. apply list_find_None in Hf. destruct Hex as (v & Hv & Hmaj).
      rewrite Forall_forall in Hf. by apply (Hf v).
  - right. intros v. destruct (decide (v ∈ replies)) as [Hin|Hni].
    + apply Nat.nle_gt. intros Hmaj. apply Hno, Exists_exists. eauto.
    + rewrite occurrences_not_elem by done. unfold threshold. lia.
Qed.

(** Every run can be continued until the caller has its value: each event
    uses up fuel, and an event is possible while the caller waits. *)
Lemma run_to_return tr s :
  run replies tr = Some s →
  ∃ tr' s', run replies (tr ++ tr') = Some s' ∧ is_Some (returned s').
Proof.
  remember (fuel s) as m eqn:Hm. revert tr s Hm.
  induction m as [m IH] using lt_wf_ind. intros tr s -> Hrun.
  destruct (returned s) as [w|] eqn:Hret.
  - exists [], s. rewrite app_nil_r, Hret. eauto.
  - destruct (progress replies tr s) as (e & s1 & Hstep);
      [by apply run_Inv|by left|].
    pose proof (step_fuel _ _ _ _ Hstep) as Hlt.
    destruct (IH (fuel s1) Hlt (tr ++ [e]) s1 eq_refl) as (tr' & s' & Hrun' & Hs');
      [by eapply run_snoc|].
    exists (e :: tr'), s'. split; [|done].
    by rewrite <-(assoc_L _ tr [e] tr') in Hrun'.
Qed.

Lemma always_returns_run v :
  always_returns replies v → ∃ tr s, run replies tr = Some s ∧ returned s = Some v.
Proof.
  intros Hret. destruct (run_to_return [] (init replies) eq_refl)
    as (tr & s & Hrun & [w Hw]).
  exists tr, s. split; [done|].
  destruct (Hret tr s Hrun) as (_ & _ & Heq). by rewrite (Heq w Hw) in Hw.
Qed.

(** X1: whatever the replies, the entry point returns: there is a value that
    it returns under every schedule, and a schedule on which it has returned
    that value. *)
Theorem call_always_returns :
  ∃ v, always_returns replies v ∧
       ∃ tr s, run replies tr = Some s ∧ returned s = Some v.
Proof.
  destruct majority_or_none as [[v Hv]|Hno].
  - exists v. assert (always_returns replies v) by (by apply majority_returns).
    split; [done|by apply always_returns_run].
  - exists ""%string.
    assert (always_returns replies "") by (by apply no_majority_always_empty).
    split; [done|by apply always_returns_run].
Qed.

(** X2: the value returned is fixed by the replies alone, not by the
    schedule: the entry point returns [v] exactly when [v] is the reply of at
    least [floor(N/2)+1] resolvers, or [v] is the empty string and no reply
    has that many votes. *)
Theorem always_returns_iff v :
  always_returns replies v ↔
  threshold replies ≤ occurrences v replies ∨ (v = ""%string ∧ no_majority replies).
Proof.
  split.
  - intros Hv. destruct (always_returns_run v Hv) as (tr & s & Hrun & Hw).
    destruct majority_or_none as [[v' Hmaj]|Hno].
    + left. destruct (majority_returns replies v' Hmaj tr s Hrun) as (_ & _ & Heq).
      by rewrite (Heq v Hw).
    + right. split; [|done].
      destruct (no_majority_always_empty Hno tr s Hrun) as (_ & _ & Heq).
      by apply Heq.
  - intros [Hmaj|[-> Hno]];
      [by apply majority_returns|by apply no_majority_always_empty].
Qed.

Lemma iters_deliveries tr s :
  run replies tr = Some s → iters s + length (deliveries tr) = length replies.
Proof.
  unfold run. revert s. induction tr as [|e tr IH] using rev_ind; intros s.
  - intros [= <-]. simpl. lia.
  - rewrite exec_snoc, deliveries_snoc, length_app.
    destruct (exec replies (init replies) tr) as [s0|]; [|done].
    specialize (IH s0 eq_refl). destruct e.
    + intros (k & ip & _ & Hit & _ & ->)%step_Deliver. simpl. lia.
    + intros (ip & _ & _ & ->)%step_Emit. simpl. lia.
    + intros (_ & _ & _ & ->)%step_Close. simpl. lia.
    + intros (_ & _ & ->)%step_RecvClosed. simpl. lia.
Qed.

(** One more reply [v] can be delivered as long as one is outstanding and the
    collector is not parked. *)
Lemma deliver_one tr s v :
  run replies tr = Some s → sending s = None →
  ips s !!! v < occurrences v replies →
  ∃ i s', run replies (tr ++ [Deliver i]) = Some s' ∧
    arrivals replies (tr ++ [Deliver i]) = arrivals replies tr ++ [v] ∧
    returned s' = returned s ∧
    sending s' = (if negb (done s) && (length replies / 2 <? S (ips s !!! v))%nat
                  then Some v else None).
Proof.
  intros Hrun Hsend Hlt. pose proof (run_Inv _ _ _ Hrun) as HI.
  pose proof (inv_left _ _ _ HI v) as Hleft.
  destruct (pending_lookup s v) as [i Hi].
  { apply occurrences_elem. lia. }
  assert (∃ k, iters s = S k) as [k Hit].
  { rewrite (inv_iters _ _ _ HI).
    destruct (pending s) eqn:Hp; [|simpl; eauto].
    rewrite occurrences_nil in Hleft. lia. }
  assert (replies !! i = Some v) as Hr.
  { assert (i < length replies) as Hlen.
    { rewrite <-(inv_len _ _ _ HI). by eapply lookup_lt_Some. }
    destruct (lookup_lt_is_Some_2 _ _ Hlen) as [r Hr].
    pose proof (inv_senders _ _ _ HI i r Hr) as Hs. rewrite Hi in Hs.
    case_decide; congruence. }
  eexists i, _. unfold run in *. rewrite exec_snoc, Hrun.
  split; [unfold step; by rewrite Hsend, Hit, Hi|].
  rewrite arrivals_snoc, Hr. done.
Qed.

Lemma deliver_below_threshold v k :
  k ≤ length replies / 2 → k ≤ occurrences v replies →
  ∃ tr s, run replies tr = Some s ∧ sending s = None ∧ returned s = None ∧
    emissions tr = 0 ∧ arrivals replies tr = replicate k v ∧
    length (deliveries tr) = k.
Proof.
  induction k as [|k IH]; intros Hk Hocc.
  - exists [], (init replies). done.
  - destruct IH as (tr & s & Hrun & Hsend & Hret & Hem & Harr & Hlen); [lia..|].
    pose proof (run_Inv _ _ _ Hrun) as HI.
    assert (ips s !!! v = k) as Hv.
    { by rewrite (inv_tally _ _ _ HI), Harr, occurrences_replicate. }
    destruct (deliver_one tr s v Hrun Hsend) as (i & s' & Hrun' & Harr' & Hret' & Hs');
      [lia|].
    exists (tr ++ [Deliver i]), s'. split_and!; try done.
    + rewrite Hs', Hv. destruct (negb (done s)); [|done]. cbn [andb].
      rewrite (proj2 (Nat.ltb_ge _ _)); [done|lia].
    + congruence.
    + rewrite emissions_snoc, Hem. by rewrite decide_False.
    + rewrite Harr', Harr. by rewrite <-replicate_S_end.
    + rewrite deliveries_snoc, length_app. simpl. lia.
Qed.

(** X3: the entry point does not wait for the slower resolvers: when [v] has
    a quorum, some schedule has the caller return [v] after exactly
    [floor(N/2)+1] replies were received, the other replies still unsent. *)
Theorem early_return_possible v :
  threshold replies ≤ occurrences v replies →
  ∃ tr s, run replies tr = Some s ∧ returned s = Some v ∧
    length (deliveries tr) = threshold replies ∧
    length (pending s) = length replies - threshold replies.
Proof.
  intros Hmaj. unfold threshold in *.
  destruct (deliver_below_threshold v (length replies / 2))
    as (tr & s & Hrun & Hsend & Hret & Hem & Harr & Hlen); [lia..|].
  pose proof (run_Inv _ _ _ Hrun) as HI.
  assert (ips s !!! v = length replies / 2) as Hv.
  { by rewrite (inv_tally _ _ _ HI), Harr, occurrences_replicate. }
  assert (done s = false) as Hd.
  { pose proof (inv_emits _ _ _ HI) as He. rewrite Hem in He.
    by destruct (done s). }
  destruct (deliver_one tr s v Hrun Hsend) as (i & s' & Hrun' & _ & Hret' & Hs');
    [lia|].
  rewrite Hd, Hv in Hs'. cbn [negb andb] in Hs'.
  rewrite (proj2 (Nat.ltb_lt _ _)) in Hs' by lia.
  destruct (step replies s' Emit) as [s''|] eqn:Hemit.
  2:{ unfold step in Hemit. rewrite Hs', Hret', Hret in Hemit. done. }
  pose proof (run_snoc _ _ _ _ Hrun' Hemit) as Hrun''.
  exists ((tr ++ [Deliver i]) ++ [Emit]), s''.
  pose proof (iters_deliveries _ _ Hrun'') as Hcount.
  pose proof (run_Inv _ _ _ Hrun'') as HI''.
  rewrite <-(inv_iters _ _ _ HI'').
  apply step_Emit in Hemit as (ip & Hip & _ & ->). cbn [returned iters] in *.
  rewrite !deliveries_snoc, !length_app in *. simpl in *.
  split_and!; [done|congruence|lia|lia].
Qed.

(** X4: the collector hands a value over at the very delivery that brings its
    count to the threshold: whenever it is parked at [result <- ip], the
    count of [ip] is exactly [floor(N/2)+1] and every other count is below
    the threshold. *)
Theorem emission_at_exact_threshold tr s ip :
  run replies tr = Some s → sending s = Some ip →
  ips s !!! ip = threshold replies ∧
  ∀ v, v ≠ ip → ips s !!! v < threshold replies.
Proof.
  unfold run. revert s. induction tr as [|e tr IH] using rev_ind; intros s.
  { by intros [= <-]. }
  rewrite exec_snoc.
  destruct (exec replies (init replies) tr) as [s0|] eqn:Hrun0; [|done].
  pose proof (run_Inv replies tr s0 Hrun0) as HI.
  destruct e.
  - intros (k & r & Hsend & _ & _ & ->)%step_Deliver.
    cbn [sending ips]. destruct (done s0) eqn:Hd; [done|]. cbn [negb andb].
    destruct (_ <? _)%nat eqn:Hc; [|done]. intros [= ->].
    apply Nat.ltb_lt in Hc.
    pose proof (inv_quiet _ _ _ HI Hd Hsend) as Hlow. unfold threshold. split.
    + rewrite lookup_total_insert_eq. specialize (Hlow ip). lia.
    + intros v Hne. rewrite lookup_total_insert_ne by done.
      specialize (Hlow v). lia.
  - by intros (? & _ & _ & ->)%step_Emit.
  - intros (Hsend & _ & _ & ->)%step_Close. cbn [sending]. congruence.
  - intros (Hc & _ & ->)%step_RecvClosed. cbn [sending].
    destruct (inv_closed _ _ _ HI Hc). congruence.
Qed.

(** X5: as long as a reply is outstanding and no value has been emitted, the
    caller is still waiting: the empty result of a pool without quorum is
    never delivered before the last resolver has replied. *)
Theorem outstanding_reply_holds_back_return tr s :
  run replies tr = Some s → pending s ≠ [] → emissions tr = 0 →
  returned s = None.
Proof.
  intros Hrun Hp Hem. pose proof (run_Inv _ _ _ Hrun) as HI.
  destruct (returned s) as [w|] eqn:Hw; [exfalso|done].
  destruct (returned_cases _ _ _ _ HI Hw) as [[Hd _]|(_ & _ & ? & _)]; [|done].
  rewrite (inv_emits _ _ _ HI), Hd in Hem. done.
Qed.

(** X6: when nothing more can happen, nothing is left blocked: every sending
    goroutine has delivered and ended, the collecting loop is over and not
    parked, [result] is closed and the caller has returned. *)
Theorem nothing_left_blocked tr s :
  run replies tr = Some s → quiescent replies s →
  Forall (λ o, o = None) (senders s) ∧ iters s = 0 ∧ sending s = None ∧
  closed s = true ∧ is_Some (returned s).
Proof.
  intros Hrun Hq. pose proof (run_Inv _ _ _ Hrun) as HI.
  destruct (quiescent_end _ _ _ HI Hq) as [Hp Hret].
  assert (iters s = 0) as Hit by (by rewrite (inv_iters _ _ _ HI), Hp).
  assert (sending s = None) as Hsend.
  { destruct (sending s) as [ip|] eqn:Hs; [|done].
    destruct (inv_sending _ _ _ HI ip Hs) as (_ & Hnone & _).
    rewrite Hnone in Hret. by destruct Hret. }
  split_and!; try done; [by apply pending_nil_senders|].
  destruct (closed s) eqn:Hc; [done|].
  specialize (Hq Close). unfold step in Hq. by rewrite Hsend, Hit, Hc in Hq.
Qed.

End Schedules.

Lemma early_return_possible_witness :
  let replies := ["1.2.3.4"; "5.6.7.8"; "1.2.3.4"; "1.2.3.4"; "9.9.9.9"]%string in
  threshold replies ≤ occurrences "1.2.3.4"%string replies ∧
  ∃ tr s, run replies tr = Some s ∧ returned s = Some "1.2.3.4"%string ∧
    length (deliveries tr) = threshold replies ∧
    length (pending s) = length replies - threshold replies.
Proof.
  intros replies. split; [vm_compute; lia|].
  apply (early_return_possible replies). vm_compute; lia.
Defined.

Lemma emission_at_exact_threshold_witness :
  let replies := ["1.2.3.4"; "1.2.3.4"; "5.6.7.8"; "1.2.3.4"; "1.2.3.4"]%string in
  let tr := [Deliver 2; Deliver 0; Deliver 3; Deliver 1] in
  ∃ s, run replies tr = Some s ∧ sending s = Some "1.2.3.4"%string ∧
    ips s !!! "1.2.3.4"%string = threshold replies ∧
    ∀ v, v ≠ "1.2.3.4"%string → ips s !!! v < threshold replies.
Proof.
  intros replies tr. eexists. split; [vm_compute; reflexivity|].
  split; [reflexivity|].
  apply (emission_at_exact_threshold replies tr); [vm_compute|]; reflexivity.
Defined.

Lemma outstanding_reply_holds_back_return_witness :
  let replies := ["1.2.3.4"; "5.6.7.8"; "9.9.9.9"]%string in
  let tr := [Deliver 1; Deliver 0] in
  ∃ s, run replies tr = Some s ∧ pending s ≠ [] ∧ emissions tr = 0 ∧
    returned s = None.
Proof.
  intros replies tr. eexists. split; [vm_compute; reflexivity|].
  assert (emissions tr = 0) as Hem by reflexivity.
  split; [vm_compute; discriminate|]. split; [exact Hem|].
  apply (outstanding_reply_holds_back_return replies tr);
    [vm_compute; reflexivity|vm_compute; discriminate|exact Hem].
Defined.

Lemma nothing_left_blocked_witness :
  let replies := ["1.2.3.4"; "5.6.7.8"; "1.2.3.4"]%string in
  let tr := [Deliver 0; Deliver 2; Emit; Deliver 1; Close] in
  ∃ s, run replies tr = Some s ∧ quiescent replies s ∧
    Forall (λ o, o = None) (senders s) ∧ iters s = 0 ∧ sending s = None ∧
    closed s = true ∧ is_Some (returned s).
Proof.
  intros replies tr. eexists. split; [vm_compute; reflexivity|].
  assert (∀ s, run replies tr = Some s → quiescent replies s) as Hq.
  { intros s [= <-] e. destruct e; reflexivity. }
  split; [apply Hq; vm_compute; reflexivity|].
  apply (nothing_left_blocked replies tr);
    [vm_compute; reflexivity|apply Hq; vm_compute; reflexivity].
Defined.

(** * Further properties of the resolvers *)

Lemma NoDup_urls : NoDup urls.
Proof. apply (bool_decide_unpack _). vm_compute. exact I. Qed.

(** X7: a result of [HTTP] other than the empty string was served: at least
    ten of the eighteen urls answered the GET, delivered their body, and the
    body, trimmed, is that result. *)
Theorem http_result_was_served (TrimSpace : string → string) (Get : web) tr s w :
  run (HTTP_replies TrimSpace Get) tr = Some s →
  returned s = Some w → w ≠ ""%string →
  ∃ served, NoDup served ∧ served ⊆ urls ∧ 10 ≤ length served ∧
    ∀ u, u ∈ served → ∃ resp bytes,
      Get u = Get_ok resp ∧ Body resp = ReadAll_ok bytes ∧ TrimSpace bytes = w.
Proof.
  intros Hrun Hw Hne. pose proof (run_Inv _ _ _ Hrun) as HI.
  exists (filter (λ u, urlGetReadAll TrimSpace Get u = w) urls). split_and!.
  - apply NoDup_filter, NoDup_urls.
  - intros u Hu. by apply list_elem_of_filter in Hu as [_ ?].
  - destruct (returned_cases _ _ _ _ HI Hw) as [[_ Hmaj]|(_ & _ & _ & ? & _)];
      [|done].
    pose proof (tally_le _ _ _ w HI) as Hle.
    unfold HTTP_replies in Hle. rewrite occurrences_fmap in Hle.
    assert (length (HTTP_replies TrimSpace Get) = 18) as Hn.
    { unfold HTTP_replies. by rewrite length_fmap. }
    rewrite Hn in Hmaj. change (18 / 2) with 9 in Hmaj. lia.
  - intros u [Hu _]%list_elem_of_filter. unfold urlGetReadAll in Hu.
    destruct (Get u) as [resp|]; [|congruence].
    destruct (Body resp) as [bytes|] eqn:Hb; [|congruence]. eauto.
Qed.

Lemma http_result_was_served_witness :
  let Get : web := λ u,
    if bool_decide (u ∈ take 10 urls)
    then Get_ok {| StatusCode := 200; Body := ReadAll_ok "192.0.2.7 " |}
    else Get_err in
  let tr := (Deliver <$> seq 0 10) ++ [Emit] in
  ∃ s, run (HTTP_replies trimASCII Get) tr = Some s ∧
    returned s = Some "192.0.2.7"%string ∧
    ∃ served, NoDup served ∧ served ⊆ urls ∧ 10 ≤ length served ∧
      ∀ u, u ∈ served → ∃ resp bytes,
        Get u = Get_ok resp ∧ Body resp = ReadAll_ok bytes
        ∧ trimASCII bytes = "192.0.2.7"%string.
Proof.
  intros Get tr. eexists. split; [vm_compute; reflexivity|].
  split; [reflexivity|].
  eapply (http_result_was_served trimASCII Get tr).
  - vm_compute; reflexivity.
  - reflexivity.
  - discriminate.
Defined.

(** With three replies, two that agree are a quorum. *)
Lemma two_of_three_returns (r1 r2 r3 : string) :
  always_returns [r1; r2; r3]
    (if decide (r1 = r2) then r1
     else if decide (r1 = r3) then r1
     else if decide (r2 = r3) then r2
     else ""%string).
Proof.
  repeat case_decide; subst.
  1-3: apply majority_returns; unfold threshold; cbn [length];
       rewrite !occurrences_cons, occurrences_nil;
       change (3 / 2) with 1; repeat case_decide; simplify_eq; lia.
  apply no_majority_always_empty. intros v. unfold threshold. cbn [length].
  rewrite !occurrences_cons, occurrences_nil. change (3 / 2) with 1.
  repeat case_decide; simplify_eq; lia.
Qed.

(** ** Printing an IPv4 address *)

Lemma uitoa_dotfree b : dotfree (uitoa b) = true.
Proof. destruct b; vm_compute; reflexivity. Qed.

Lemma uitoa_head b : ∃ c r, uitoa b = String c r ∧ c ≠ "<"%char.
Proof.
  destruct b; eexists _, _; (split; [vm_compute; reflexivity|discriminate]).
Qed.

Lemma uitoa_inj a b : uitoa a = uitoa b → a = b.
Proof.
  intros Heq.
  assert (∀ x, Byte.of_N (N.of_uint
            (default Decimal.Nil (NilEmpty.uint_of_string (uitoa x)))) = Some x)
    as Hback.
  { intros x. destruct x; vm_compute; reflexivity. }
  pose proof (Hback a) as Ha. rewrite Heq, Hback in Ha. congruence.
Qed.

Lemma split_at_dot s1 s2 r1 r2 :
  dotfree s1 = true → dotfree s2 = true →
  s1 +:+ "." +:+ r1 = s2 +:+ "." +:+ r2 → s1 = s2 ∧ r1 = r2.
Proof.
  revert s2. induction s1 as [|c s1 IH]; intros [|c' s2] H1 H2 Heq;
    simpl in *.
  - by injection Heq.
  - injection Heq as <- _. by rewrite Ascii.eqb_refl in H2.
  - injection Heq as -> _. by rewrite Ascii.eqb_refl in H1.
  - injection Heq as -> Heq.
    apply andb_prop in H1 as [_ H1]. apply andb_prop in H2 as [_ H2].
    destruct (IH s2 H1 H2 Heq) as [-> ->]. done.
Qed.

Lemma dotted_inj a b c d a' b' c' d' :
  dotted a b c d = dotted a' b' c' d' → a = a' ∧ b = b' ∧ c = c' ∧ d = d'.
Proof.
  unfold dotted. intros H.
  apply split_at_dot in H as [Ha H]; [|apply uitoa_dotfree..].
  apply split_at_dot in H as [Hb H]; [|apply uitoa_dotfree..].
  apply split_at_dot in H as [Hc Hd]; [|apply uitoa_dotfree..].
  auto using uitoa_inj.
Qed.

Lemma dotted_not_empty a b c d : dotted a b c d ≠ ""%string.
Proof.
  unfold dotted. destruct (uitoa_head a) as (ch & r & -> & _). discriminate.
Qed.

Lemma dotted_not_nil a b c d : dotted a b c d ≠ "<nil>"%string.
Proof.
  unfold dotted. destruct (uitoa_head a) as (ch & r & -> & Hne).
  simpl. intros [= ->]. done.
Qed.

(** [To4] yields nil or four bytes. *)
Lemma To4_shape ip : To4 ip = [] ∨ ∃ a b c d, To4 ip = [a; b; c; d].
Proof.
  unfold To4. case_decide as H4.
  - destruct ip as [|y1 [|y2 [|y3 [|y4 [|? ?]]]]]; try done. right. eauto.
  - case_decide as H16; [|by left]. destruct (_ && _); [|by left].
    right. do 12 (destruct ip as [|? ip]; [done|]).
    destruct ip as [|y1 [|y2 [|y3 [|y4 [|? ?]]]]]; try done. simpl. eauto.
Qed.

Lemma IP_String_To4 (String6 : IP → string) ip :
  IP_String String6 (To4 ip) =
  match To4 ip with
  | [a; b; c; d] => dotted a b c d
  | _ => "<nil>"%string
  end.
Proof.
  destruct (To4_shape ip) as [->|(a & b & c & d & ->)]; reflexivity.
Qed.

(** X8: what the resolvers print determines the address: two results of
    [To4] with the same text are the same (four bytes, or nil both). *)
Theorem To4_String_inj (String6 : IP → string) (x y : IP) :
  IP_String String6 (To4 x) = IP_String String6 (To4 y) → To4 x = To4 y.
Proof.
  rewrite !IP_String_To4.
  destruct (To4_shape x) as [->|(a & b & c & d & ->)],
           (To4_shape y) as [->|(a' & b' & c' & d' & ->)]; try done.
  - intros H. symmetry in H. by apply dotted_not_nil in H.
  - intros H. by apply dotted_not_nil in H.
  - by intros (-> & -> & -> & ->)%dotted_inj.
Qed.

Lemma To4_String_inj_witness :
  let x := [xc0; x00; x02; x2a] in
  let y := [x00; x00; x00; x00; x00; x00; x00; x00; x00; x00; xff; xff;
            xc0; x00; x02; x2a] in
  IP_String (λ _, ""%string) (To4 x) = IP_String (λ _, ""%string) (To4 y)
  ∧ To4 x = To4 y.
Proof.
  intros x y. split; [reflexivity|].
  apply (To4_String_inj (λ _, ""%string) x y). reflexivity.
Defined.

Section DNSPool.
Context (ParseIP : string → IP) (String6 : IP → string) (Exchange : resolver).

(** X9: when no resolver panics, [DNS] returns the reply on which two of the
    three resolvers agree, and the empty string when all three differ. *)
Theorem DNS_two_of_three replies :
  DNS_replies ParseIP String6 Exchange = Some replies →
  ∃ r1 r2 r3, replies = [r1; r2; r3] ∧
    GoogleDNS ParseIP String6 Exchange = Return r1 ∧
    OpenDNS String6 Exchange = Return r2 ∧
    AkamaiDNS String6 Exchange = Return r3 ∧
    always_returns replies
      (if decide (r1 = r2) then r1
       else if decide (r1 = r3) then r1
       else if decide (r2 = r3) then r2
       else ""%string).
Proof.
  unfold DNS_replies, queriers. cbn [mapM].
  destruct (GoogleDNS _ _ _) as [r1|]; [|done].
  destruct (OpenDNS _ _) as [r2|]; [|done].
  destruct (AkamaiDNS _ _) as [r3|]; [|done].
  intros [= <-]. exists r1, r2, r3. split_and!; try done.
  apply two_of_three_returns.
Qed.

Lemma GoogleDNS_panics_iff :
  GoogleDNS ParseIP String6 Exchange = Panic ↔
  ∃ reply, Exchange "o-o.myaddr.l.google.com." TypeTXT "ns1.google.com:53"
             = Exchange_ok reply
           ∧ (Answer reply = [] ∨ ∃ rest, Answer reply = RR_TXT [] :: rest).
Proof.
  unfold GoogleDNS.
  destruct (Exchange _ _ _) as [[answer]|]; cbn [Answer].
  - destruct answer as [|[A|[|t Txt]|] rest]; cbn; split;
      try discriminate; eauto.
    all: intros (reply & [= <-] & [Hnil|[rest' Hrest]]); discriminate.
  - split; [discriminate|]. by intros (reply & ? & _).
Qed.

Lemma OpenDNS_panics_iff :
  OpenDNS String6 Exchange = Panic ↔
  ∃ reply, Exchange "myip.opendns.com." TypeA "resolver1.opendns.com:53"
             = Exchange_ok reply ∧ Answer reply = [].
Proof.
  unfold OpenDNS.
  destruct (Exchange _ _ _) as [[answer]|]; cbn [Answer].
  - destruct answer as [|[A|Txt|] rest]; cbn; split; try discriminate; eauto.
    all: intros (reply & [= <-] & Hnil); discriminate.
  - split; [discriminate|]. by intros (reply & ? & _).
Qed.

Lemma AkamaiDNS_panics_iff :
  AkamaiDNS String6 Exchange = Panic ↔
  ∃ reply, Exchange "whoami.akamai.net." TypeA "ns1-1.akamaitech.net:53"
             = Exchange_ok reply ∧ Answer reply = [].
Proof.
  unfold AkamaiDNS.
  destruct (Exchange _ _ _) as [[answer]|]; cbn [Answer].
  - destruct answer as [|[A|Txt|] rest]; cbn; split; try discriminate; eauto.
    all: intros (reply & [= <-] & Hnil); discriminate.
  - split; [discriminate|]. by intros (reply & ? & _).
Qed.

(** X10: the DNS pool panics exactly when one of the three exchanges
    succeeds with a reply that has no answer record, or the reply to the TXT
    question starts with a TXT record without text; one such reply is
    enough, whatever the other two resolvers get. *)
Theorem DNS_panics_iff :
  DNS_replies ParseIP String6 Exchange = None ↔
  (∃ reply, Exchange "o-o.myaddr.l.google.com." TypeTXT "ns1.google.com:53"
              = Exchange_ok reply
            ∧ (Answer reply = [] ∨ ∃ rest, Answer reply = RR_TXT [] :: rest))
  ∨ (∃ reply, Exchange "myip.opendns.com." TypeA "resolver1.opendns.com:53"
                = Exchange_ok reply ∧ Answer reply = [])
  ∨ (∃ reply, Exchange "whoami.akamai.net." TypeA "ns1-1.akamaitech.net:53"
                = Exchange_ok reply ∧ Answer reply = []).
Proof.
  rewrite <-GoogleDNS_panics_iff, <-OpenDNS_panics_iff, <-AkamaiDNS_panics_iff.
  unfold DNS_replies, queriers. cbn [mapM].
  destruct (GoogleDNS _ _ _), (OpenDNS _ _), (AkamaiDNS _ _); cbn;
    split; try discriminate; try tauto; intros [|[|]]; discriminate.
Qed.

(** X11: a resolver panics, or returns the empty string, the text ["<nil>"],
    or an IPv4 address in dotted decimal; it never returns the text of an
    IPv6 address. *)
Theorem dns_reply_shape :
  Forall (λ f : resolver → outcome,
            f Exchange = Panic ∨ f Exchange = Return "" ∨
            f Exchange = Return "<nil>" ∨
            ∃ a b c d, f Exchange = Return (dotted a b c d))
         (queriers ParseIP String6).
Proof.
  assert (∀ ip, Return (IP_String String6 (To4 ip)) = Return "<nil>"
                ∨ ∃ a b c d,
                    Return (IP_String String6 (To4 ip)) = Return (dotted a b c d))
    as Hprint.
  { intros ip. rewrite IP_String_To4.
    destruct (To4_shape ip) as [->|(a & b & c & d & ->)]; eauto 10. }
  unfold queriers. repeat apply Forall_cons_2; [| | |apply Forall_nil_2].
  - unfold GoogleDNS. destruct (Exchange _ _ _) as [[answer]|]; cbn [Answer]; [|auto].
    destruct answer as [|[A|[|t Txt]|] rest]; cbn; auto.
  - unfold OpenDNS. destruct (Exchange _ _ _) as [[answer]|]; cbn [Answer]; [|auto].
    destruct answer as [|[A|Txt|] rest]; cbn; auto.
  - unfold AkamaiDNS. destruct (Exchange _ _ _) as [[answer]|]; cbn [Answer]; [|auto].
    destruct answer as [|[A|Txt|] rest]; cbn; auto.
Qed.

(** X12: a resolver returns the dotted decimal text of an address exactly
    when its exchange succeeds and the first answer record holds that
    address: an A record for [OpenDNS] and [AkamaiDNS], the first text of a
    TXT record, parsed, for [GoogleDNS]. *)
Theorem dns_address_reply_iff a b c d :
  (GoogleDNS ParseIP String6 Exchange = Return (dotted a b c d) ↔
   ∃ reply t more rest,
     Exchange "o-o.myaddr.l.google.com." TypeTXT "ns1.google.com:53"
       = Exchange_ok reply
     ∧ Answer reply = RR_TXT (t :: more) :: rest
     ∧ To4 (ParseIP t) = [a; b; c; d]) ∧
  (OpenDNS String6 Exchange = Return (dotted a b c d) ↔
   ∃ reply A rest,
     Exchange "myip.opendns.com." TypeA "resolver1.opendns.com:53"
       = Exchange_ok reply
     ∧ Answer reply = RR_A A :: rest ∧ To4 A = [a; b; c; d]) ∧
  (AkamaiDNS String6 Exchange = Return (dotted a b c d) ↔
   ∃ reply A rest,
     Exchange "whoami.akamai.net." TypeA "ns1-1.akamaitech.net:53"
       = Exchange_ok reply
     ∧ Answer reply = RR_A A :: rest ∧ To4 A = [a; b; c; d]).
Proof.
  assert (∀ ip, Return (IP_String String6 (To4 ip)) = Return (dotted a b c d)
                ↔ To4 ip = [a; b; c; d]) as Hprint.
  { intros ip. rewrite IP_String_To4.
    destruct (To4_shape ip) as [->|(a' & b' & c' & d' & ->)]; split.
    - intros [= H]. symmetry in H. by apply dotted_not_nil in H.
    - discriminate.
    - intros [= (-> & -> & -> & ->)%dotted_inj]. done.
    - by intros [= -> -> -> ->]. }
  assert (Return "" ≠ Return (dotted a b c d)) as Hempty.
  { intros [= H]. symmetry in H. by apply dotted_not_empty in H. }
  split_and!; unfold GoogleDNS, OpenDNS, AkamaiDNS;
    destruct (Exchange _ _ _) as [[answer]|]; cbn [Answer].
  all: try (split; [by intros ?%Hempty|by intros (? & ? & ? & ? & ? & _)]).
  all: try (split; [by intros ?%Hempty|by intros (? & ? & ? & ? & _)]).
  all: destruct answer as [|[A|[|t Txt]|] rest]; cbn.
  all: try (split; [done|intros (? & ? & ? & ? & [= <-] & ? & _); done]).
  all: try (split; [done|intros (? & ? & ? & [= <-] & ? & _); done]).
  all: try (split; [by intros ?%Hempty|intros (? & ? & ? & ? & [= <-] & ? & _); done]).
  all: try (split; [by intros ?%Hempty|intros (? & ? & ? & [= <-] & ? & _); done]).
  all: rewrite Hprint; split.
  all: try (intros ?; by eauto 10).
  all: try (by intros (? & ? & ? & ? & [= <-] & [= <- <- <-] & ?)).
  all: try (by intros (? & ? & ? & [= <-] & [= <- <-] & ?)).
Qed.

End DNSPool.

Lemma DNS_two_of_three_witness :
  let ParseIP : string → IP := λ _, [] in
  let String6 : IP → string := λ _, ""%string in
  let Exchange : resolver := λ _ t _,
    match t with
    | TypeA => Exchange_ok {| Answer := [RR_A [xc6; x33; x64; x07]] |}
    | TypeTXT => Exchange_err
    end in
  let replies := [""; "198.51.100.7"; "198.51.100.7"]%string in
  DNS_replies ParseIP String6 Exchange = Some replies ∧
  ∃ r1 r2 r3, replies = [r1; r2; r3] ∧
    GoogleDNS ParseIP String6 Exchange = Return r1 ∧
    OpenDNS String6 Exchange = Return r2 ∧
    AkamaiDNS String6 Exchange = Return r3 ∧
    always_returns replies
      (if decide (r1 = r2) then r1
       else if decide (r1 = r3) then r1
       else if decide (r2 = r3) then r2
       else ""%string).
Proof.
  intros ParseIP String6 Exchange replies. split; [reflexivity|].
  apply (DNS_two_of_three ParseIP String6 Exchange). reflexivity.
Defined.
